(** * golang-fp-utility: the [collection] package, embedded and verified

    Shallow embedding of [src/collection/collection.go].  Go slices and maps
    keep their nil / non-nil distinction, loops are folds (or structural
    recursion where the loop returns early), callbacks that may have side
    effects are state-passing functions, and [int] is a 64-bit two's
    complement integer carried by [Z]. *)

From stdpp Require Import base list gmap strings.
From Stdlib Require Import ZArith DecimalString OrdersEx.

Local Open Scope Z_scope.
Set Warnings "-clear-no-such-hyp".

(** ** The Go data model *)

Module Go.

(** A slice value is either [nil] or a (possibly empty) backing sequence. *)
Inductive slice (T : Type) : Type :=
| nil_slice
| mk_slice (items : list T).
Arguments nil_slice {T}.
Arguments mk_slice {T} items.

(** The elements a [range] loop visits; ranging over [nil] visits nothing. *)
Definition elems {T} (s : slice T) : list T :=
  match s with
  | nil_slice => []
  | mk_slice items => items
  end.

Definition is_nil {T} (s : slice T) : bool :=
  match s with
  | nil_slice => true
  | mk_slice _ => false
  end.

(** [int] on the 64-bit platforms Go targets. *)
Definition maxInt : Z := 2 ^ 63 - 1.
Definition minInt : Z := - 2 ^ 63.
Definition wrap (z : Z) : Z := (z + 2 ^ 63) mod 2 ^ 64 - 2 ^ 63.

(** [len(s)]; [len(nil)] is 0. *)
Definition len {T} (s : slice T) : Z := Z.of_nat (length (elems s)).

(** A slice the runtime can hold: its length fits in [int]. *)
Definition representable {T} (s : slice T) : Prop := len s <= maxInt.

(** [append(s, xs...)]: appending nothing to [nil] stays [nil]; every other
    case yields a non-nil slice. *)
Definition append {T} (s : slice T) (xs : list T) : slice T :=
  match s, xs with
  | nil_slice, [] => nil_slice
  | _, _ => mk_slice (elems s ++ xs)
  end.

(** The zero value every Go type has ([var x T]). *)
Class Zero (T : Type) := zero : T.
#[export] Instance Zero_int : Zero Z := 0.
#[export] Instance Zero_string : Zero string := EmptyString.
#[export] Instance Zero_bool : Zero bool := false.
#[export] Instance Zero_slice {T} : Zero (slice T) := nil_slice.
#[export] Instance Zero_pair {A B} `{Zero A, Zero B} : Zero (A * B) := (zero, zero).

(** [make([]T, n)]: [n] zero values, never nil. *)
Definition make {T} `{Zero T} (n : Z) : slice T :=
  mk_slice (replicate (Z.to_nat n) zero).

(** [copy(dst, src)] overwrites the first [min(len dst, len src)] cells. *)
Definition copy {T} (dst src : slice T) : slice T :=
  match dst with
  | nil_slice => nil_slice
  | mk_slice d =>
      let n := Nat.min (length d) (length (elems src)) in
      mk_slice (take n (elems src) ++ drop n d)
  end.

(** A map value is either [nil] or a finite map. *)
Inductive gomap (K V : Type) `{Countable K} : Type :=
| nil_map
| mk_map (m : gmap K V).
Arguments nil_map {K V _ _}.
Arguments mk_map {K V _ _} m.

Definition entries {K V} `{Countable K} (m : gomap K V) : gmap K V :=
  match m with
  | nil_map => ∅
  | mk_map m => m
  end.

(** [len(m)] on a map; [len] of a nil map is 0. *)
Definition map_len {K V} `{Countable K} (m : gomap K V) : Z :=
  Z.of_nat (size (entries m)).

Definition map_is_nil {K V} `{Countable K} (m : gomap K V) : bool :=
  match m with
  | nil_map => true
  | mk_map _ => false
  end.

(** [constraints.Ordered]: the types with [<] and [>].  The floating-point
    members of the constraint are outside this model. *)
Class Ordered (T : Type) := lt : T → T → bool.
Definition gt {T} `{Ordered T} (a b : T) : bool := lt b a.

Class OrderedLaws (T : Type) `{Ordered T} : Prop := {
  lt_irrefl : ∀ a : T, lt a a = false;
  lt_trans : ∀ a b c : T, lt a b = true → lt b c = true → lt a c = true;
  lt_total : ∀ a b : T, lt a b = false → lt b a = false → a = b
}.

#[export] Instance Ordered_int : Ordered Z := Z.ltb.

(** Strings compare byte by byte. *)
#[export] Instance Ordered_string : Ordered string :=
  λ a b, match String_as_OT.compare a b with Lt => true | _ => false end.

(** The integer part of the [Summable] constraint: [+] on [int] wraps.  The
    floating-point members are outside this model. *)
Class Summable (T : Type) := plus : T → T → T.
#[export] Instance Summable_int : Summable Z := λ a b, wrap (a + b).

(** Error values.  [errorString] is any leaf error with the given message;
    the other two are what [github.com/pkg/errors] builds in [Wrap]. *)
Inductive error : Type :=
| errorString (s : string)
| withMessage (cause : error) (msg : string)
| withStack (inner : error).

(** The [Error()] method. *)
Fixpoint Error (e : error) : string :=
  match e with
  | errorString s => s
  | withMessage cause msg => msg +:+ ": " +:+ Error cause
  | withStack inner => Error inner
  end.

(** [errors.New(msg)]. *)
Definition New (msg : string) : error := errorString msg.

(** [errors.Wrap(err, message)]: nil stays nil, otherwise the message is
    put in front of the cause and a stack is attached. *)
Definition Wrap (err : option error) (message : string) : option error :=
  match err with
  | None => None
  | Some e => Some (withStack (withMessage e message))
  end.

(** The verb [%v] on an [int]: signed decimal. *)
Definition fmt_int (n : Z) : string := NilZero.string_of_int (Z.to_int n).

End Go.

Import Go.

(** ** The package *)

Module collection.

(** [Map]: lines 29-35. *)
Definition Map {T1 T2} (source : slice T1) (transform : T1 → T2) : slice T2 :=
  fold_left (λ result item, append result [transform item])
    (elems source) (mk_slice []).

(** [Filter]: lines 160-168. *)
Definition Filter {T} (source : slice T) (filterFunc : T → bool) : slice T :=
  fold_left (λ result item,
               if filterFunc item then append result [item] else result)
    (elems source) (mk_slice []).

(** [Count]: lines 266-274; [count++] is 64-bit addition. *)
Definition Count {T} (s : slice T) (predicate : T → bool) : Z :=
  fold_left (λ count v, if predicate v then wrap (count + 1) else count)
    (elems s) 0.

(** [Partition]: lines 250-263. *)
Definition Partition {T} (s : slice T) (predicate : T → bool)
  : slice T * slice T :=
  fold_left (λ '(trueSlice, falseSlice) v,
               if predicate v
               then (append trueSlice [v], falseSlice)
               else (trueSlice, append falseSlice [v]))
    (elems s) (mk_slice [], mk_slice []).

(** [Compose]: lines 286-290. *)
Definition Compose {T1 T2 T3} (f : T2 → T3) (g : T1 → T2) : T1 → T3 :=
  λ x, f (g x).

(** [Pipe]: lines 293-297. *)
Definition Pipe {T1 T2 T3} (g : T1 → T2) (f : T2 → T3) : T1 → T3 :=
  λ x, f (g x).

(** [FlatMap]: lines 49-55; [append(result, item...)]. *)
Definition FlatMap {T1} (source : slice (slice T1)) : slice T1 :=
  fold_left (λ result item, append result (elems item))
    (elems source) (mk_slice []).

(** [Reduce]: lines 58-64. *)
Definition Reduce {T} (source : slice T) (reduceFunc : T → T → T)
    (initialValue : T) : T :=
  fold_left (λ acc item, reduceFunc acc item) (elems source) initialValue.

(** [Sum]: lines 72-78; [total] starts as the zero value. *)
Definition Sum {T} `{Summable T, Zero T} (items : slice T) : T :=
  fold_left (λ total v, plus total v) (elems items) zero.

(** [FilterMap]: lines 38-46.  [result] is made non-nil before the loop, so
    its contents are tracked as a finite map; the iteration order Go picks
    is whatever order [map_fold] visits the entries in. *)
Definition FilterMap {K V} `{Countable K} (source : gomap K V)
    (filteringFunc : K → V → bool) : gomap K V :=
  mk_map (map_fold (λ key value result,
                      if filteringFunc key value
                      then <[key := value]> result
                      else result)
            ∅ (entries source)).

(** [CloneMap]: lines 81-87; the capacity hint of [make] is not observable. *)
Definition CloneMap {K V} `{Countable K} (source : gomap K V) : gomap K V :=
  mk_map (map_fold (λ key value clone, <[key := value]> clone)
            ∅ (entries source)).

(** [CloneList]: lines 90-94. *)
Definition CloneList {T} `{Zero T} (source : slice T) : slice T :=
  let clone := make (len source) in
  copy clone source.

(** [seen[item]] on a [map[T]bool]: a missing key reads as [false]. *)
Definition seen_get {T} `{Countable T} (seen : gmap T bool) (item : T) : bool :=
  default false (seen !! item).

(** One iteration of the loop shared by [Distinct] and [DistinctFunc]. *)
Definition distinct_step {T} `{Countable T}
    (acc : gmap T bool * slice T) (item : T) : gmap T bool * slice T :=
  let '(seen, unique) := acc in
  if negb (seen_get seen item)
  then (<[item := true]> seen, append unique [item])
  else (seen, unique).

(** [Distinct]: lines 103-113. *)
Definition Distinct {T} `{Countable T} (s : slice T) : slice T :=
  (fold_left distinct_step (elems s) (∅, mk_slice [])).2.

(** [DistinctFunc]: lines 116-126; the body never mentions [compareFunc]. *)
Definition DistinctFunc {T} `{Countable T} (s : slice T)
    (compareFunc : T → T → bool) : slice T :=
  (fold_left distinct_step (elems s) (∅, mk_slice [])).2.

(** [Exists]: lines 172-179. *)
Fixpoint Exists_loop {T} (items : list T) (condition : T → bool) : bool :=
  match items with
  | [] => false
  | item :: rest => if condition item then true else Exists_loop rest condition
  end.

Definition Exists {T} (s : slice T) (condition : T → bool) : bool :=
  Exists_loop (elems s) condition.

(** [Max]: lines 182-194.  The named result [max] starts as the zero value;
    [v > max] is [lt max v]. *)
Definition Max {T} `{Ordered T, Zero T} (s : slice T) : T * bool :=
  match elems s with
  | [] => (zero, false)
  | first :: rest =>
      (fold_left (λ max v, if gt v max then v else max) rest first, true)
  end.

(** [Min]: lines 197-209. *)
Definition Min {T} `{Ordered T, Zero T} (s : slice T) : T * bool :=
  match elems s with
  | [] => (zero, false)
  | first :: rest =>
      (fold_left (λ min v, if lt v min then v else min) rest first, true)
  end.

(** [MaxBy]: lines 212-228; the loop carries [max] and [maxValue]. *)
Definition MaxBy {T R} `{Zero T, Ordered R} (s : slice T) (getter : T → R)
  : T * bool :=
  match elems s with
  | [] => (zero, false)
  | first :: rest =>
      let step := λ '(max, maxValue) v,
        let value := getter v in
        if gt value maxValue then (v, value) else (max, maxValue) in
      ((fold_left step rest (first, getter first)).1, true)
  end.

(** [MinBy]: lines 231-247. *)
Definition MinBy {T R} `{Zero T, Ordered R} (s : slice T) (getter : T → R)
  : T * bool :=
  match elems s with
  | [] => (zero, false)
  | first :: rest =>
      let step := λ '(min, minValue) v,
        let value := getter v in
        if lt value minValue then (v, value) else (min, minValue) in
      ((fold_left step rest (first, getter first)).1, true)
  end.

(** [Curry]: lines 277-283. *)
Definition Curry {T1 T2 R} (fn : T1 → T2 → R) : T1 → T2 → R :=
  λ t1 t2, fn t1 t2.

(** [Chain]: lines 301-306. *)
Definition Chain {T} (value : T) (functions : list (T → T)) : T :=
  fold_left (λ value fn, fn value) functions value.

(** *** Callbacks with side effects

    A Go closure may read and write what it captured.  Such a callback is a
    function of the state [St] it can reach, returning its results together
    with the state it leaves behind. *)

Section Effects.
Context {St : Type}.

(** [ForEach]: lines 129-133. *)
Definition ForEach {T} (source : slice T) (action : T → St → St) (st : St) : St :=
  fold_left (λ st item, action item st) (elems source) st.

(** [ForEachWithError]: lines 136-143; [return err] leaves the loop. *)
Fixpoint ForEachWithError_loop {T} (items : list T)
    (action : T → St → option error * St) (st : St) : option error * St :=
  match items with
  | [] => (None, st)
  | item :: rest =>
      let '(err, st') := action item st in
      match err with
      | Some e => (Some e, st')
      | None => ForEachWithError_loop rest action st'
      end
  end.

Definition ForEachWithError {T} (source : slice T)
    (action : T → St → option error * St) (st : St) : option error * St :=
  ForEachWithError_loop (elems source) action st.

(** [fmt.Sprintf("error mapping at index:'%v', error", idx)]. *)
Definition Sprintf_index (idx : Z) : string :=
  "error mapping at index:'" +:+ fmt_int idx +:+ "', error".

(** [MapReturnWithError]: lines 146-157.  [idx] is the range index and
    [result] the slice built so far. *)
Fixpoint MapReturnWithError_loop {T1 T2} (items : list T1)
    (mappingFunc : T1 → St → (T2 * option error) * St)
    (idx : Z) (result : slice T2) (st : St)
  : (slice T2 * option error) * St :=
  match items with
  | [] => ((result, None), st)
  | item :: rest =>
      let '((res, err), st') := mappingFunc item st in
      match err with
      | Some _ => ((nil_slice, Wrap err (Sprintf_index idx)), st')
      | None =>
          MapReturnWithError_loop rest mappingFunc (idx + 1)
            (append result [res]) st'
      end
  end.

Definition MapReturnWithError {T1 T2} (source : slice T1)
    (mappingFunc : T1 → St → (T2 * option error) * St) (st : St)
  : (slice T2 * option error) * St :=
  MapReturnWithError_loop (elems source) mappingFunc 0 (mk_slice []) st.

End Effects.

End collection.

Import collection.

(** ** Reference definitions used to state the properties *)

(** The elements of [l] without repetition, each kept where it first
    occurs. *)
Fixpoint first_occurrences {T} `{EqDecision T} (l : list T) : list T :=
  match l with
  | [] => []
  | x :: rest => x :: filter (λ y, y ≠ x) (first_occurrences rest)
  end.

Section CallbackSpec.
Context {St T : Type}.

(** A callback wrapped so that, next to its own state, it keeps the list of
    the arguments it has been called with, in call order. *)
Definition traced {R} (f : T → St → R * St)
  : T → St * list T → R * (St * list T) :=
  λ item '(st, calls),
    let '(r, st') := f item st in (r, (st', calls ++ [item])).

(** [all_nil action l st st']: calling [action] on the elements of [l] in
    order, starting in [st], returns nil every time and ends in [st']. *)
Inductive all_nil (action : T → St → option error * St)
  : list T → St → St → Prop :=
| all_nil_done st : all_nil action [] st st
| all_nil_call item rest st st1 st2 :
    action item st = (None, st1) →
    all_nil action rest st1 st2 →
    all_nil action (item :: rest) st st2.

(** [all_mapped f l st results st']: calling [f] on the elements of [l] in
    order, starting in [st], returns [results] one by one, each with a nil
    error, and ends in [st']. *)
Inductive all_mapped {T2} (f : T → St → (T2 * option error) * St)
  : list T → St → list T2 → St → Prop :=
| all_mapped_done st : all_mapped f [] st [] st
| all_mapped_call item rest st res st1 results st2 :
    f item st = ((res, None), st1) →
    all_mapped f rest st1 results st2 →
    all_mapped f (item :: rest) st (res :: results) st2.

End CallbackSpec.

(** The opposite order, used to read a minimum as a maximum. *)
Definition Ordered_rev {R} (O : Ordered R) : Ordered R := λ a b, @lt R O b a.

(** The body of the loop of [MaxBy], as a step on the pair of loop
    variables. *)
Definition MaxBy_step {T R} `{Ordered R} (getter : T → R)
  : T * R → T → T * R :=
  λ '(max, maxValue) v,
    let value := getter v in
    if gt value maxValue then (v, value) else (max, maxValue).

(** [m] sits at index [i] of [l], no key in [l] exceeds its key, and every
    key before index [i] is strictly smaller. *)
Definition first_max {T R} `{Ordered R} (getter : T → R)
    (l : list T) (i : nat) (m : T) : Prop :=
  l !! i = Some m
  ∧ (∀ (j : nat) y, l !! j = Some y → lt (getter m) (getter y) = false)
  ∧ (∀ (j : nat) y, (j < i)%nat → l !! j = Some y →
       lt (getter y) (getter m) = true).

(** Sample inputs. *)
Definition sample_ints : slice Z := mk_slice [1; 2; 3; 4; 5].
Definition sample_pairs : slice (Z * Z) :=
  mk_slice [(1, 30); (2, 25); (3, 35); (4, 35); (5, 25)].

(** A transform that doubles its argument, fails on 3, and counts its own
    calls in the state. *)
Definition double_unless_3 (x : Z) (calls : Z) : (Z * option error) * Z :=
  if x =? 3
  then ((0, Some (New "fake error for 3")), calls + 1)
  else ((x * 2, None), calls + 1).

(** An action that fails on 3 and counts its own calls in the state. *)
Definition fail_on_3 (x : Z) (calls : Z) : option error * Z :=
  if x =? 3 then (Some (New "error"), calls + 1) else (None, calls + 1).

(** The exact (unbounded) sum of a list of integers. *)
Definition total_of (l : list Z) : Z := foldr Z.add 0 l.

(** The values an [int] can hold. *)
Definition in_int_range (z : Z) : Prop := minInt ≤ z ≤ maxInt.

(** An action without result, wrapped so that it also records the
    arguments it has been called with, in call order. *)
Definition traced_action {St T} (action : T → St → St)
  : T → St * list T → St * list T :=
  λ item '(st, calls), (action item st, calls ++ [item]).

(** A callback that cannot fail, seen as one that may. *)
Definition never_fails {St T} (action : T → St → St)
  : T → St → option error * St :=
  λ item st, (None, action item st).

(** A pure transform, seen as one that may fail and may touch state. *)
Definition always_succeeds {St T1 T2} (f : T1 → T2)
  : T1 → St → (T2 * option error) * St :=
  λ item st, ((f item, None), st).

(** ** Loop lemmas

    Each [range] loop is a left fold; these lemmas give the value of the
    fold started from an arbitrary accumulator, which is what an induction
    over the remaining elements needs. *)

Module loops.

Lemma append_mk {T} (acc xs : list T) :
  append (mk_slice acc) xs = mk_slice (acc ++ xs).
Proof. by destruct xs. Qed.

Lemma len_zero_elems {T} (s : slice T) : len s = 0 → elems s = [].
Proof.
  unfold len. destruct (elems s) as [|x l]; [done|].
  simpl length. lia.
Qed.

Lemma wrap_small z : minInt ≤ z ≤ maxInt → wrap z = z.
Proof.
  unfold wrap, minInt, maxInt. intros Hz.
  rewrite Z.mod_small; lia.
Qed.

Lemma Map_loop {T1 T2} (f : T1 → T2) (l : list T1) (acc : list T2) :
  fold_left (λ result item, append result [f item]) l (mk_slice acc)
  = mk_slice (acc ++ (f <$> l)).
Proof.
  revert acc. induction l as [|x l IH]; intros acc; cbn [fold_left].
  - by rewrite app_nil_r.
  - rewrite append_mk, IH. by rewrite <- app_assoc.
Qed.

Lemma Filter_loop {T} (p : T → bool) (l acc : list T) :
  fold_left (λ result item, if p item then append result [item] else result)
    l (mk_slice acc)
  = mk_slice (acc ++ filter (λ x, p x = true) l).
Proof.
  revert acc. induction l as [|x l IH]; intros acc; cbn [fold_left].
  - by rewrite app_nil_r.
  - destruct (p x) eqn:Hx.
    + rewrite append_mk, IH, filter_cons_True by done.
      by rewrite <- app_assoc.
    + rewrite IH, filter_cons_False; [done|]. by rewrite Hx.
Qed.

Lemma Count_loop {T} (p : T → bool) (l : list T) (c : Z) :
  0 ≤ c → c + Z.of_nat (length l) ≤ maxInt →
  fold_left (λ count v, if p v then wrap (count + 1) else count) l c
  = c + Z.of_nat (length (filter (λ x, p x = true) l)).
Proof.
  revert c. induction l as [|x l IH]; intros c Hc Hfit; cbn [fold_left].
  - rewrite filter_nil. simpl. lia.
  - simpl length in Hfit. destruct (p x) eqn:Hx.
    + rewrite wrap_small by (unfold minInt; lia).
      rewrite IH by lia. rewrite filter_cons_True by done.
      simpl length. lia.
    + rewrite IH by lia. rewrite filter_cons_False; [done|]. by rewrite Hx.
Qed.

Lemma Partition_loop {T} (p : T → bool) (l yes no : list T) :
  fold_left (λ '(trueSlice, falseSlice) v,
               if p v
               then (append trueSlice [v], falseSlice)
               else (trueSlice, append falseSlice [v]))
    l (mk_slice yes, mk_slice no)
  = (mk_slice (yes ++ filter (λ x, p x = true) l),
     mk_slice (no ++ filter (λ x, p x = false) l)).
Proof.
  revert yes no. induction l as [|x l IH]; intros yes no; cbn [fold_left].
  - by rewrite !app_nil_r.
  - destruct (p x) eqn:Hx.
    + rewrite append_mk, IH, filter_cons_True by done.
      rewrite (filter_cons_False (λ x, p x = false)) by (by rewrite Hx).
      by rewrite <- app_assoc.
    + rewrite append_mk, IH, (filter_cons_True (λ x, p x = false)) by done.
      rewrite filter_cons_False by (by rewrite Hx).
      by rewrite <- app_assoc.
Qed.

Lemma filter_false_complement {T} (p : T → bool) (l : list T) :
  filter (λ x, p x = false) l = filter (λ x, ¬ (p x = true)) l.
Proof. apply list_filter_iff. intros x. by destruct (p x). Qed.

Lemma filter_all {T} (P : T → Prop) `{∀ x, Decision (P x)} (l : list T) :
  (∀ x, x ∈ l → P x) → filter P l = l.
Proof.
  induction l as [|x l IH]; intros Hall; [done|].
  rewrite filter_cons_True by (apply Hall; left).
  f_equal. apply IH. intros y Hy. apply Hall. by right.
Qed.

Lemma first_occurrences_elem_of {T} `{EqDecision T} (l : list T) (x : T) :
  x ∈ first_occurrences l ↔ x ∈ l.
Proof.
  induction l as [|y l IH]; simpl; [done|].
  rewrite !elem_of_cons, list_elem_of_filter, IH.
  destruct (decide (x = y)); naive_solver.
Qed.

Lemma first_occurrences_NoDup {T} `{EqDecision T} (l : list T) :
  NoDup (first_occurrences l).
Proof.
  induction l as [|y l IH]; simpl; [constructor|].
  apply NoDup_cons. split.
  - rewrite list_elem_of_filter. naive_solver.
  - by apply NoDup_filter.
Qed.

Lemma seen_get_insert {T} `{Countable T} (seen : gmap T bool) (x y : T) :
  seen_get (<[x := true]> seen) y = true ↔ y = x ∨ seen_get seen y = true.
Proof.
  unfold seen_get. rewrite lookup_insert.
  case_decide; simpl; naive_solver.
Qed.

(** The loop of [Distinct], started anywhere [seen] records exactly the
    elements already in [unique]. *)
Lemma Distinct_loop {T} `{Countable T} (l : list T)
    (seen : gmap T bool) (unique : list T) :
  (∀ x, seen_get seen x = true ↔ x ∈ unique) →
  (fold_left distinct_step l (seen, mk_slice unique)).2
  = mk_slice (unique ++ filter (λ y, y ∉ unique) (first_occurrences l)).
Proof.
  revert seen unique.
  induction l as [|x l IH]; intros seen unique Hseen; cbn [fold_left].
  - simpl. by rewrite app_nil_r.
  - unfold distinct_step at 2. destruct (seen_get seen x) eqn:Hx; simpl negb; cbv iota.
    + apply Hseen in Hx. rewrite IH by done. simpl first_occurrences.
      rewrite filter_cons_False by naive_solver.
      rewrite list_filter_filter. do 2 f_equal.
      apply list_filter_iff. naive_solver.
    + assert (x ∉ unique) as Hnew.
      { intros Hin. apply Hseen in Hin. congruence. }
      rewrite append_mk, IH.
      2:{ intros y. rewrite seen_get_insert, Hseen, elem_of_app, list_elem_of_singleton.
          naive_solver. }
      simpl first_occurrences. rewrite filter_cons_True by done.
      rewrite list_filter_filter, <- app_assoc. simpl. do 3 f_equal.
      apply list_filter_iff. intros y.
      rewrite elem_of_app, list_elem_of_singleton. naive_solver.
Qed.

Lemma map_len_zero_entries {K V} `{Countable K} (m : gomap K V) :
  map_len m = 0 → entries m = ∅.
Proof.
  unfold map_len. intros Hlen. apply map_size_empty_inv. lia.
Qed.

(** *** Ordered types *)

Section Order.
Context {T : Type} `{OrderedLaws T}.

Lemma lt_asym (a b : T) : lt a b = true → lt b a = false.
Proof.
  intros Hab. destruct (lt b a) eqn:Hba; [|done].
  pose proof (lt_trans a b a Hab Hba) as Haa.
  rewrite lt_irrefl in Haa. done.
Qed.

(** [lt b a = false] reads "a is at most b"; it is transitive. *)
Lemma not_lt_trans (a b c : T) :
  lt b a = false → lt c b = false → lt c a = false.
Proof.
  intros Hab Hbc. destruct (lt c a) eqn:Hca; [|done].
  destruct (lt a b) eqn:Hlt.
  - pose proof (lt_trans c a b Hca Hlt). congruence.
  - pose proof (lt_total a b Hlt Hab). subst. congruence.
Qed.

Lemma Max_loop (rest : list T) (first : T) :
  let hi := fold_left (λ max v, if gt v max then v else max) rest first in
  hi ∈ first :: rest ∧ ∀ x, x ∈ first :: rest → lt hi x = false.
Proof.
  revert first. induction rest as [|v rest IH]; intros first; cbn [fold_left].
  - split; [left|]. intros x Hx. apply list_elem_of_singleton in Hx as ->.
    apply lt_irrefl.
  - destruct (IH (if gt v first then v else first)) as [Hin Hub].
    unfold gt in *. split.
    + destruct (lt first v); rewrite !elem_of_cons in *; naive_solver.
    + intros x Hx. rewrite !elem_of_cons in Hx.
      destruct Hx as [->|[->|Hx]].
      * destruct (lt first v) eqn:Hfv.
        -- apply not_lt_trans with v; [by apply lt_asym|]. apply Hub. left.
        -- apply Hub. left.
      * destruct (lt first v) eqn:Hfv.
        -- apply Hub. left.
        -- apply not_lt_trans with first; [done|]. apply Hub. left.
      * apply Hub. by right.
Qed.

Lemma Min_loop (rest : list T) (first : T) :
  let lo := fold_left (λ min v, if lt v min then v else min) rest first in
  lo ∈ first :: rest ∧ ∀ x, x ∈ first :: rest → lt x lo = false.
Proof.
  revert first. induction rest as [|v rest IH]; intros first; cbn [fold_left].
  - split; [left|]. intros x Hx. apply list_elem_of_singleton in Hx as ->.
    apply lt_irrefl.
  - destruct (IH (if lt v first then v else first)) as [Hin Hlb].
    split.
    + destruct (lt v first); rewrite !elem_of_cons in *; naive_solver.
    + intros x Hx. rewrite !elem_of_cons in Hx.
      destruct Hx as [->|[->|Hx]].
      * destruct (lt v first) eqn:Hvf.
        -- apply not_lt_trans with v; [apply Hlb; left|by apply lt_asym].
        -- apply Hlb. left.
      * destruct (lt v first) eqn:Hvf.
        -- apply Hlb. left.
        -- apply not_lt_trans with first; [apply Hlb; left|done].
      * apply Hlb. by right.
Qed.

(** a ≤ b and b < c give a < c. *)
Lemma not_lt_lt_trans (a b c : T) :
  lt b a = false → lt b c = true → lt a c = true.
Proof.
  intros Hab Hbc. destruct (lt a b) eqn:Hlt.
  - by apply lt_trans with b.
  - by rewrite (lt_total a b Hlt Hab).
Qed.

End Order.

Lemma OrderedLaws_rev {R} (O : Ordered R) :
  @OrderedLaws R O → @OrderedLaws R (Ordered_rev O).
Proof.
  intros HL. split; unfold lt, Ordered_rev.
  - intros a. apply lt_irrefl.
  - intros a b c Hab Hbc. by apply (@lt_trans R O HL c b a).
  - intros a b Hab Hba. by apply (@lt_total R O HL).
Qed.

Section ByKey.
Context {T R : Type} {O : Ordered R} {OL : OrderedLaws R}.
Variable getter : T → R.

Lemma MaxBy_loop (rest pre : list T) (i : nat) (m : T) :
  first_max getter pre i m →
  ∃ i', first_max getter (pre ++ rest) i'
          (fold_left (MaxBy_step getter) rest (m, getter m)).1.
Proof.
  revert pre i m.
  induction rest as [|v rest IH]; intros pre i m (Hat & Hub & Hbefore).
  - exists i. by rewrite app_nil_r.
  - cbn [fold_left]. unfold MaxBy_step at 2, gt.
    replace (pre ++ v :: rest) with ((pre ++ [v]) ++ rest)
      by (by rewrite <- app_assoc).
    destruct (lt (getter m) (getter v)) eqn:Hmv.
    + apply (IH (pre ++ [v]) (length pre)). repeat split.
      * by rewrite lookup_snoc_Some; right.
      * intros j y Hy. apply lookup_snoc_Some in Hy as [[_ Hy]|[_ <-]].
        -- apply not_lt_trans with (getter m); [by eapply Hub|by apply lt_asym].
        -- apply lt_irrefl.
      * intros j y Hj Hy. apply lookup_snoc_Some in Hy as [[_ Hy]|[-> _]]; [|lia].
        apply not_lt_lt_trans with (getter m); [by eapply Hub|done].
    + apply (IH (pre ++ [v]) i). repeat split.
      * by apply lookup_app_l_Some.
      * intros j y Hy. apply lookup_snoc_Some in Hy as [[_ Hy]|[_ <-]];
          [by eapply Hub|done].
      * intros j y Hj Hy. apply lookup_snoc_Some in Hy as [[_ Hy]|[-> _]].
        -- by eapply Hbefore.
        -- apply lookup_lt_Some in Hat. lia.
Qed.

Lemma MaxBy_first (first : T) (rest : list T) :
  ∃ i, first_max getter (first :: rest) i
         (fold_left (MaxBy_step getter) rest (first, getter first)).1.
Proof.
  apply (MaxBy_loop rest [first] 0%nat first). repeat split.
  - intros j y Hy. apply list_lookup_singleton_Some in Hy as [_ <-].
    apply lt_irrefl.
  - intros j y Hj. lia.
Qed.

End ByKey.

#[export] Instance OrderedLaws_int : OrderedLaws Z.
Proof.
  split; unfold lt, Ordered_int.
  - intros a. apply Z.ltb_irrefl.
  - intros a b c. rewrite !Z.ltb_lt. lia.
  - intros a b. rewrite !Z.ltb_ge. lia.
Qed.

(** *** Loops that return early *)

Lemma string_app_assoc (a b c : string) : (a +:+ b) +:+ c = a +:+ (b +:+ c).
Proof.
  induction a as [|ch a IH]; [done|].
  change (String ch ((a +:+ b) +:+ c) = String ch (a +:+ (b +:+ c))).
  by f_equal.
Qed.

Lemma Error_Wrap_index (cause : error) (idx : Z) :
  ∃ err, Wrap (Some cause) (Sprintf_index idx) = Some err
    ∧ Error err = "error mapping at index:'"
                  +:+ NilZero.string_of_int (Z.to_int idx)
                  +:+ "', error: " +:+ Error cause.
Proof.
  eexists. split; [reflexivity|].
  unfold Sprintf_index, fmt_int. cbn [Error].
  rewrite !string_app_assoc. reflexivity.
Qed.

Section EarlyReturn.
Context {St T : Type}.

Lemma traced_call {R} (f : T → St → R * St) item st calls r st1 :
  f item st = (r, st1) →
  traced f item (st, calls) = (r, (st1, calls ++ [item])).
Proof. intros Hf. unfold traced. by rewrite Hf. Qed.

(** The loop of [ForEachWithError] over [l], entered in state [st] with
    [calls] already recorded. *)
Lemma ForEachWithError_loop_spec (action : T → St → option error * St)
    (l : list T) (st : St) (calls : list T) :
  (∃ st',
      all_nil action l st st'
      ∧ ForEachWithError_loop l action st = (None, st')
      ∧ ForEachWithError_loop l (traced action) (st, calls)
        = (None, (st', calls ++ l)))
  ∨ (∃ pre item post st1 e st2,
      l = pre ++ item :: post
      ∧ all_nil action pre st st1
      ∧ action item st1 = (Some e, st2)
      ∧ ForEachWithError_loop l action st = (Some e, st2)
      ∧ ForEachWithError_loop l (traced action) (st, calls)
        = (Some e, (st2, calls ++ pre ++ [item]))).
Proof.
  revert st calls. induction l as [|x l IH]; intros st calls.
  - left. exists st. rewrite app_nil_r. repeat split; try done; constructor.
  - cbn [ForEachWithError_loop].
    destruct (action x st) as [[e|] st1] eqn:Hx;
      rewrite (traced_call _ _ _ calls _ _ Hx).
    + right. exists [], x, l, st, e, st1. repeat split; try done; constructor.
    + destruct (IH st1 (calls ++ [x])) as
        [(st' & Hall & Hrun & Htr)
        |(pre & item & post & s1 & e & s2 & -> & Hall & Hitem & Hrun & Htr)].
      * left. exists st'. rewrite Hrun, Htr, <- app_assoc.
        repeat split; try done; by econstructor.
      * right. exists (x :: pre), item, post, s1, e, s2.
        rewrite Hrun, Htr, <- app_assoc.
        repeat split; try done; by econstructor.
Qed.

(** The loop of [MapReturnWithError] over [l], entered with range index
    [idx], the results [acc] so far, state [st] and [calls] recorded. *)
Lemma MapReturnWithError_loop_spec {T2}
    (f : T → St → (T2 * option error) * St)
    (l : list T) (idx : Z) (acc : list T2) (st : St) (calls : list T) :
  (∃ results st',
      all_mapped f l st results st'
      ∧ MapReturnWithError_loop l f idx (mk_slice acc) st
        = ((mk_slice (acc ++ results), None), st')
      ∧ MapReturnWithError_loop l (traced f) idx (mk_slice acc) (st, calls)
        = ((mk_slice (acc ++ results), None), (st', calls ++ l)))
  ∨ (∃ pre item post results st1 res cause st2 err,
      l = pre ++ item :: post
      ∧ all_mapped f pre st results st1
      ∧ f item st1 = ((res, Some cause), st2)
      ∧ MapReturnWithError_loop l f idx (mk_slice acc) st
        = ((nil_slice, Some err), st2)
      ∧ MapReturnWithError_loop l (traced f) idx (mk_slice acc) (st, calls)
        = ((nil_slice, Some err), (st2, calls ++ pre ++ [item]))
      ∧ Error err
        = "error mapping at index:'"
          +:+ NilZero.string_of_int (Z.to_int (idx + Z.of_nat (length pre)))
          +:+ "', error: " +:+ Error cause).
Proof.
  revert idx acc st calls. induction l as [|x l IH]; intros idx acc st calls.
  - left. exists [], st. rewrite !app_nil_r. repeat split; try done; constructor.
  - cbn [MapReturnWithError_loop].
    destruct (f x st) as [[res [cause|]] st1] eqn:Hx;
      rewrite (traced_call _ _ _ calls _ _ Hx).
    + right. destruct (Error_Wrap_index cause idx) as (err & Hwrap & Hmsg).
      exists [], x, l, [], st, res, cause, st1, err. rewrite Hwrap.
      repeat split; try done; [constructor|]. simpl length. by rewrite Z.add_0_r.
    + rewrite append_mk.
      destruct (IH (idx + 1) (acc ++ [res]) st1 (calls ++ [x])) as
        [(results & st' & Hall & Hrun & Htr)
        |(pre & item & post & results & s1 & r & cause & s2 & err
          & -> & Hall & Hitem & Hrun & Htr & Hmsg)].
      * left. exists (res :: results), st'.
        rewrite Hrun, Htr, <- !app_assoc. repeat split; try done; by econstructor.
      * right. exists (x :: pre), item, post, (res :: results), s1, r, cause, s2, err.
        rewrite Hrun, Htr, <- app_assoc.
        repeat split; try done; [by econstructor|].
        rewrite Hmsg. do 4 f_equal. simpl length. lia.
Qed.

End EarlyReturn.

#[export] Instance OrderedLaws_string : OrderedLaws string.
Proof.
  split; unfold lt, Ordered_string.
  - intros a. destruct (String_as_OT.compare_spec a a) as [_|Hlt|Hlt];
      [done|exfalso..]; by apply (irreflexivity String_as_OT.lt a).
  - intros a b c.
    destruct (String_as_OT.compare_spec a b) as [|Hab|]; [done| |done].
    destruct (String_as_OT.compare_spec b c) as [|Hbc|]; [done| |done].
    intros _ _. pose proof (transitivity Hab Hbc) as Hac.
    unfold String_as_OT.lt in Hac. by rewrite Hac.
  - intros a b.
    destruct (String_as_OT.compare_spec a b) as [Heq|Hab|Hba]; [done|done|].
    unfold String_as_OT.lt in Hba. by rewrite Hba.
Qed.

End loops.

(** ** Specification theorems *)

Module spec.
Import loops.

(** C5: [Map(s, f)] is as long as [s], and its element at every index [i]
    is [f(s[i])]. *)
Theorem Map_length_and_index {T1 T2} (s : slice T1) (f : T1 → T2) :
  len (Map s f) = len s
  ∧ ∀ i : nat, elems (Map s f) !! i = f <$> (elems s !! i).
Proof.
  unfold Map. rewrite Map_loop. simpl app. split.
  - unfold len. simpl. by rewrite length_fmap.
  - intros i. simpl. apply list_lookup_fmap.
Qed.

(** C10: on any slice the runtime can hold, [Count(slice, predicate)] is
    the length of [Filter(slice, predicate)]. *)
Theorem Count_is_len_Filter {T} (s : slice T) (predicate : T → bool) :
  representable s →
  Count s predicate = len (Filter s predicate).
Proof.
  unfold representable, len, Count, Filter. intros Hs.
  rewrite Count_loop by lia. rewrite Filter_loop. simpl. lia.
Qed.

Lemma Count_is_len_Filter_witness :
  representable (mk_slice [1; 2; 3; 4; 5])
  ∧ Count (mk_slice [1; 2; 3; 4; 5]) (λ x, 3 <? x)
    = len (Filter (mk_slice [1; 2; 3; 4; 5]) (λ x, 3 <? x)).
Proof.
  split.
  - unfold representable, len, maxInt. simpl. lia.
  - apply (Count_is_len_Filter (mk_slice [1; 2; 3; 4; 5]) (λ x, 3 <? x)).
    unfold representable, len, maxInt. simpl. lia.
Defined.

(** C4: [Partition] returns two non-nil slices: the elements satisfying
    the predicate and the elements not satisfying it, each in the order of
    the input, and together a rearrangement of the input. *)
Theorem Partition_buckets {T} (s : slice T) (predicate : T → bool) :
  ∃ yes no : list T,
    Partition s predicate = (mk_slice yes, mk_slice no)
    ∧ yes = filter (λ x, predicate x = true) (elems s)
    ∧ no = filter (λ x, predicate x = false) (elems s)
    ∧ sublist yes (elems s) ∧ sublist no (elems s)
    ∧ yes ++ no ≡ₚ elems s.
Proof.
  eexists _, _. unfold Partition. rewrite Partition_loop. simpl app.
  split; [reflexivity|]. repeat split.
  - apply sublist_filter.
  - apply sublist_filter.
  - rewrite filter_false_complement. apply filter_app_complement.
Qed.

(** C9: [Pipe(g, f)] and [Compose(f, g)] return functions that agree on
    every input: both give [f(g(x))]. *)
Theorem Pipe_is_Compose {T1 T2 T3} (g : T1 → T2) (f : T2 → T3) (x : T1) :
  Pipe g f x = Compose f g x ∧ Pipe g f x = f (g x).
Proof. done. Qed.

(** C2: [DistinctFunc(slice, compareFunc)] returns what [Distinct(slice)]
    returns, whatever [compareFunc] is: the elements of the slice under the
    type's own equality, without repetition, each where it is first seen. *)
Theorem DistinctFunc_is_Distinct {T} `{Countable T}
    (s : slice T) (compareFunc : T → T → bool) :
  DistinctFunc s compareFunc = Distinct s
  ∧ Distinct s = mk_slice (first_occurrences (elems s))
  ∧ NoDup (elems (Distinct s))
  ∧ ∀ x, x ∈ elems (Distinct s) ↔ x ∈ elems s.
Proof.
  assert (Distinct s = mk_slice (first_occurrences (elems s))) as HD.
  { unfold Distinct. rewrite Distinct_loop.
    - simpl app. f_equal. apply filter_all. intros x _. apply not_elem_of_nil.
    - intros x. unfold seen_get. rewrite lookup_empty. simpl.
      split; [done|]. intros Hx. by apply not_elem_of_nil in Hx. }
  split; [done|]. split; [done|]. rewrite HD. simpl elems. split.
  - apply first_occurrences_NoDup.
  - apply first_occurrences_elem_of.
Qed.

(** C3: on an empty (or nil) slice [Max] and [Min] return the zero value
    and [false]; otherwise they return [true] with an element of the slice
    that no element exceeds, respectively that exceeds no element. *)
Theorem Max_Min_extremes {T} `{OrderedLaws T, Zero T} (s : slice T) :
  (len s = 0 → Max s = (zero, false) ∧ Min s = (zero, false))
  ∧ (len s ≠ 0 →
     ∃ hi lo : T,
       Max s = (hi, true) ∧ Min s = (lo, true)
       ∧ hi ∈ elems s ∧ lo ∈ elems s
       ∧ ∀ x, x ∈ elems s → lt hi x = false ∧ lt x lo = false).
Proof.
  unfold Max, Min, len. destruct (elems s) as [|first rest]; simpl length.
  - split; [done|]. intros Hne. lia.
  - split; [intros Hlen; lia|]. intros _.
    destruct (Max_loop rest first) as [Hhi Hub].
    destruct (Min_loop rest first) as [Hlo Hlb].
    eexists _, _. repeat split; eauto.
Qed.

Lemma Max_Min_extremes_witness :
  OrderedLaws Z
  ∧ (len (mk_slice [3; 1; 4; 1; 5]) = 0 →
     Max (mk_slice [3; 1; 4; 1; 5]) = (zero, false)
     ∧ Min (mk_slice [3; 1; 4; 1; 5]) = (zero, false))
  ∧ (len (mk_slice [3; 1; 4; 1; 5]) ≠ 0 →
     ∃ hi lo : Z,
       Max (mk_slice [3; 1; 4; 1; 5]) = (hi, true)
       ∧ Min (mk_slice [3; 1; 4; 1; 5]) = (lo, true)
       ∧ hi ∈ elems (mk_slice [3; 1; 4; 1; 5])
       ∧ lo ∈ elems (mk_slice [3; 1; 4; 1; 5])
       ∧ ∀ x, x ∈ elems (mk_slice [3; 1; 4; 1; 5]) →
              lt hi x = false ∧ lt x lo = false).
Proof.
  split; [apply OrderedLaws_int|].
  apply (Max_Min_extremes (mk_slice [3; 1; 4; 1; 5])).
Defined.

(** C8: on an empty slice [MaxBy] and [MinBy] return the zero value and
    [false].  On a non-empty slice they return [true] with the element at
    some index [i] (resp. [k]) whose key no other key exceeds (resp. is
    below), while every element before that index has a strictly smaller
    (resp. strictly greater) key: the first element reaching the extreme
    key wins. *)
Theorem MaxBy_MinBy_first_extreme {T R} `{Zero T, OrderedLaws R}
    (s : slice T) (key : T → R) :
  (len s = 0 → MaxBy s key = (zero, false) ∧ MinBy s key = (zero, false))
  ∧ (len s ≠ 0 →
     ∃ (i k : nat) (hi lo : T),
       MaxBy s key = (hi, true) ∧ MinBy s key = (lo, true)
       ∧ elems s !! i = Some hi ∧ elems s !! k = Some lo
       ∧ (∀ (j : nat) y, elems s !! j = Some y →
            lt (key hi) (key y) = false ∧ lt (key y) (key lo) = false)
       ∧ (∀ (j : nat) y, (j < i)%nat → elems s !! j = Some y →
            lt (key y) (key hi) = true)
       ∧ (∀ (j : nat) y, (j < k)%nat → elems s !! j = Some y →
            lt (key lo) (key y) = true)).
Proof.
  unfold MaxBy, MinBy, len. destruct (elems s) as [|first rest]; simpl length.
  - split; [done|]. intros Hne. lia.
  - split; [intros Hlen; lia|]. intros _.
    destruct (MaxBy_first key first rest) as (i & Hi & Hub & Hbefore).
    destruct (MaxBy_first (O := Ordered_rev _) (OL := OrderedLaws_rev _ _)
                key first rest) as (k & Hk & Hlb & Hafter).
    exists i, k. eexists _, _.
    split; [reflexivity|]. split; [reflexivity|].
    split; [exact Hi|]. split; [exact Hk|].
    split; [|split].
    + intros j y Hy. split; [by eapply Hub|]. exact (Hlb j y Hy).
    + exact Hbefore.
    + exact Hafter.
Qed.

Lemma MaxBy_MinBy_first_extreme_witness :
  OrderedLaws Z
  ∧ (len sample_pairs = 0 →
     MaxBy sample_pairs snd = (zero, false)
     ∧ MinBy sample_pairs snd = (zero, false))
  ∧ (len sample_pairs ≠ 0 →
     ∃ (i k : nat) (hi lo : Z * Z),
       MaxBy sample_pairs snd = (hi, true)
       ∧ MinBy sample_pairs snd = (lo, true)
       ∧ elems sample_pairs !! i = Some hi
       ∧ elems sample_pairs !! k = Some lo
       ∧ (∀ (j : nat) y, elems sample_pairs !! j = Some y →
            lt (snd hi) (snd y) = false ∧ lt (snd y) (snd lo) = false)
       ∧ (∀ (j : nat) y, (j < i)%nat → elems sample_pairs !! j = Some y →
            lt (snd y) (snd hi) = true)
       ∧ (∀ (j : nat) y, (j < k)%nat → elems sample_pairs !! j = Some y →
            lt (snd lo) (snd y) = true)).
Proof.
  split; [apply OrderedLaws_int|].
  apply (MaxBy_MinBy_first_extreme sample_pairs snd).
Defined.

(** C7: [ForEachWithError] calls the action on the elements in order.
    Either every call returns nil, every element is visited and the result
    is nil; or some element [item] is the first whose call fails, the
    result is that very error, and the calls made are exactly those on the
    elements up to and including [item] - none on a later element. *)
Theorem ForEachWithError_first_failure {St T} (source : slice T)
    (action : T → St → option error * St) (st : St) :
  (∃ st',
      all_nil action (elems source) st st'
      ∧ ForEachWithError source action st = (None, st')
      ∧ ForEachWithError source (traced action) (st, [])
        = (None, (st', elems source)))
  ∨ (∃ pre item post st1 e st2,
      elems source = pre ++ item :: post
      ∧ all_nil action pre st st1
      ∧ action item st1 = (Some e, st2)
      ∧ ForEachWithError source action st = (Some e, st2)
      ∧ ForEachWithError source (traced action) (st, [])
        = (Some e, (st2, pre ++ [item]))).
Proof.
  unfold ForEachWithError.
  exact (ForEachWithError_loop_spec action (elems source) st []).
Qed.

(** C1: [MapReturnWithError] calls the transform on the elements in order.
    Either every call succeeds and the result is the non-nil slice of all
    the transformed elements with a nil error; or some element [item], at
    zero-based index [length pre], is the first whose call fails with
    [cause]: the result is the nil slice and an error whose message is
    ["error mapping at index:'<i>', error: <cause>"], where [<i>] is the
    signed decimal numeral of that index as the standard library's decimal
    printer writes it, and the transform has been called on the elements up
    to and including [item] only. *)
Theorem MapReturnWithError_first_failure {St T1 T2} (source : slice T1)
    (mappingFunc : T1 → St → (T2 * option error) * St) (st : St) :
  (∃ results st',
      all_mapped mappingFunc (elems source) st results st'
      ∧ MapReturnWithError source mappingFunc st
        = ((mk_slice results, None), st')
      ∧ MapReturnWithError source (traced mappingFunc) (st, [])
        = ((mk_slice results, None), (st', elems source)))
  ∨ (∃ pre item post results st1 res cause st2 err,
      elems source = pre ++ item :: post
      ∧ all_mapped mappingFunc pre st results st1
      ∧ mappingFunc item st1 = ((res, Some cause), st2)
      ∧ MapReturnWithError source mappingFunc st
        = ((nil_slice, Some err), st2)
      ∧ MapReturnWithError source (traced mappingFunc) (st, [])
        = ((nil_slice, Some err), (st2, pre ++ [item]))
      ∧ Error err
        = "error mapping at index:'"
          +:+ NilZero.string_of_int (Z.to_int (Z.of_nat (length pre)))
          +:+ "', error: " +:+ Error cause).
Proof.
  unfold MapReturnWithError.
  destruct (MapReturnWithError_loop_spec mappingFunc (elems source) 0 [] st [])
    as [Hok|(pre & item & post & results & st1 & res & cause & st2 & err
             & Hsplit & Hpre & Hitem & Hrun & Htraced & Hmsg)].
  - by left.
  - right. exists pre, item, post, results, st1, res, cause, st2, err.
    repeat split; try done.
Qed.

(** C6: given an empty or nil input, each function that builds a new
    slice or map returns a non-nil, empty one: [Map], [Filter], [FlatMap],
    [FilterMap], [CloneMap], [CloneList], [Distinct], [Partition] (both
    results) and [MapReturnWithError] (which succeeds). *)
Theorem empty_input_gives_empty_non_nil
    {T1 T2 K V St} `{Countable K, Countable T1, Zero T1}
    (s : slice T1) (ss : slice (slice T1)) (m : gomap K V)
    (f : T1 → T2) (p : T1 → bool) (q : K → V → bool)
    (g : T1 → St → (T2 * option error) * St) (st : St) :
  len s = 0 → len ss = 0 → map_len m = 0 →
  Map s f = mk_slice []
  ∧ Filter s p = mk_slice []
  ∧ FlatMap ss = mk_slice []
  ∧ FilterMap m q = mk_map ∅
  ∧ CloneMap m = mk_map ∅
  ∧ CloneList s = mk_slice []
  ∧ Distinct s = mk_slice []
  ∧ Partition s p = (mk_slice [], mk_slice [])
  ∧ MapReturnWithError s g st = ((mk_slice [], None), st).
Proof.
  intros Hs Hss Hm.
  unfold Map, Filter, FlatMap, FilterMap, CloneMap, CloneList, Distinct,
    Partition, MapReturnWithError.
  rewrite Hs. apply len_zero_elems in Hs, Hss.
  apply map_len_zero_entries in Hm. rewrite Hs, Hss, Hm.
  rewrite !map_fold_empty. by repeat split.
Qed.

Lemma empty_input_gives_empty_non_nil_witness :
  len (@nil_slice Z) = 0 ∧ len (@nil_slice (slice Z)) = 0
  ∧ map_len (@nil_map string Z _ _) = 0
  ∧ Map (@nil_slice Z) (Z.mul 2) = mk_slice []
  ∧ Filter (@nil_slice Z) (Z.ltb 3) = mk_slice []
  ∧ FlatMap (@nil_slice (slice Z)) = mk_slice []
  ∧ FilterMap (@nil_map string Z _ _) (λ _ v, 3 <? v) = mk_map ∅
  ∧ CloneMap (@nil_map string Z _ _) = mk_map ∅
  ∧ CloneList (@nil_slice Z) = mk_slice []
  ∧ Distinct (@nil_slice Z) = mk_slice []
  ∧ Partition (@nil_slice Z) (Z.ltb 3) = (mk_slice [], mk_slice [])
  ∧ MapReturnWithError (@nil_slice Z) (λ x (st : unit), ((x, None), st)) ()
    = ((mk_slice [], None), ()).
Proof.
  split; [reflexivity|]. split; [reflexivity|]. split; [reflexivity|].
  apply (empty_input_gives_empty_non_nil
           (@nil_slice Z) (@nil_slice (slice Z)) (@nil_map string Z _ _)
           (Z.mul 2) (Z.ltb 3) (λ _ v, 3 <? v)
           (λ x (st : unit), ((x, None), st)) ()); reflexivity.
Defined.

End spec.

(** ** Further properties of the package *)

Module extra.
Import loops.

(** *** Filtering, mapping, partitioning and counting *)

Lemma Filter_elems {T} (s : slice T) (p : T → bool) :
  Filter s p = mk_slice (filter (λ x, p x = true) (elems s)).
Proof. unfold Filter. by rewrite Filter_loop. Qed.

Lemma Map_elems {T1 T2} (s : slice T1) (f : T1 → T2) :
  Map s f = mk_slice (f <$> elems s).
Proof. unfold Map. by rewrite Map_loop. Qed.

Lemma Count_length {T} (s : slice T) (p : T → bool) :
  representable s →
  Count s p = Z.of_nat (length (filter (λ x, p x = true) (elems s))).
Proof.
  unfold representable, len, Count. intros Hs. rewrite Count_loop; lia.
Qed.

(** X1: [Filter] returns a non-nil slice holding, in the order of the
    input, exactly the elements on which the predicate is true. *)
Theorem Filter_keeps_exactly_satisfying {T} (s : slice T) (p : T → bool) :
  is_nil (Filter s p) = false
  ∧ sublist (elems (Filter s p)) (elems s)
  ∧ ∀ x, x ∈ elems (Filter s p) ↔ x ∈ elems s ∧ p x = true.
Proof.
  rewrite Filter_elems. simpl. split; [done|]. split.
  - apply sublist_filter.
  - intros x. rewrite list_elem_of_filter. naive_solver.
Qed.

(** X2: filtering twice is filtering once by the conjunction of the two
    predicates. *)
Theorem Filter_Filter {T} (s : slice T) (p q : T → bool) :
  Filter (Filter s p) q = Filter s (λ x, p x && q x).
Proof.
  rewrite !Filter_elems. simpl elems. f_equal.
  rewrite list_filter_filter. apply list_filter_iff.
  intros x. destruct (p x), (q x); naive_solver.
Qed.

(** X3: the two buckets of [Partition] are what [Filter] returns for the
    predicate and for its negation. *)
Theorem Partition_is_Filter_pair {T} (s : slice T) (p : T → bool) :
  Partition s p = (Filter s p, Filter s (λ x, negb (p x))).
Proof.
  unfold Partition. rewrite Partition_loop, !Filter_elems. simpl app.
  do 2 f_equal. apply list_filter_iff. intros x. by destruct (p x).
Qed.

(** X4: mapping twice is mapping once with the composed transform. *)
Theorem Map_Map {T1 T2 T3} (s : slice T1) (f : T1 → T2) (g : T2 → T3) :
  Map (Map s f) g = Map s (Compose g f).
Proof.
  rewrite !Map_elems. simpl elems. f_equal.
  by rewrite <- list_fmap_compose.
Qed.

(** X5: filtering a mapped slice is mapping the slice filtered by the
    predicate taken after the transform. *)
Theorem Filter_Map {T1 T2} (s : slice T1) (f : T1 → T2) (p : T2 → bool) :
  Filter (Map s f) p = Map (Filter s (Compose p f)) f.
Proof.
  rewrite Map_elems, !Filter_elems, Map_elems. simpl elems. f_equal.
  unfold Compose. induction (elems s) as [|x l IH]; [done|].
  rewrite fmap_cons. destruct (p (f x)) eqn:Hx.
  - rewrite !filter_cons_True by done. rewrite fmap_cons. by f_equal.
  - rewrite !filter_cons_False by (by rewrite Hx). done.
Qed.

(** X6: on a slice the runtime can hold, [Count] lies between 0 and the
    length, and the counts for a predicate and for its negation add up to
    the length. *)
Theorem Count_bounds_and_split {T} (s : slice T) (p : T → bool) :
  representable s →
  0 ≤ Count s p ≤ len s
  ∧ Count s p + Count s (λ x, negb (p x)) = len s.
Proof.
  intros Hs. rewrite !Count_length by done. unfold len.
  pose proof (length_filter (λ x, p x = true) (elems s)) as Hle.
  pose proof (filter_app_complement (λ x, p x = true) (elems s)) as Hperm.
  apply Permutation_length in Hperm. rewrite length_app in Hperm.
  replace (filter (λ x, negb (p x) = true) (elems s))
    with (filter (λ x, ¬ p x = true) (elems s)).
  - lia.
  - apply list_filter_iff. intros x. by destruct (p x).
Qed.

Lemma Count_bounds_and_split_witness :
  representable sample_ints
  ∧ (0 ≤ Count sample_ints (Z.ltb 3) ≤ len sample_ints
     ∧ Count sample_ints (Z.ltb 3) + Count sample_ints (λ x, negb (Z.ltb 3 x))
       = len sample_ints).
Proof.
  assert (representable sample_ints) as Hs.
  { unfold representable, len, maxInt. simpl. lia. }
  split; [exact Hs|].
  exact (Count_bounds_and_split sample_ints (Z.ltb 3) Hs).
Defined.

(** *** Flattening, folding and summing *)

Lemma FlatMap_loop {T} (l : list (slice T)) (acc : list T) :
  fold_left (λ result item, append result (elems item)) l (mk_slice acc)
  = mk_slice (acc ++ concat (elems <$> l)).
Proof.
  revert acc. induction l as [|x l IH]; intros acc; cbn [fold_left].
  - simpl. by rewrite app_nil_r.
  - rewrite append_mk, IH, fmap_cons. simpl concat. by rewrite <- app_assoc.
Qed.

Lemma elem_of_concat {T} (x : T) (ls : list (list T)) :
  x ∈ concat ls ↔ ∃ l, l ∈ ls ∧ x ∈ l.
Proof.
  induction ls as [|l0 ls IH]; simpl.
  - split; [intros Hx; by apply not_elem_of_nil in Hx|].
    intros (l & Hl & _). by apply not_elem_of_nil in Hl.
  - rewrite elem_of_app, IH. split.
    + intros [Hx|(l & Hl & Hx)]; [exists l0|exists l];
        (split; [|done]); [left|by right].
    + intros (l & Hl & Hx). apply elem_of_cons in Hl as [->|Hl];
        [by left|right; by exists l].
Qed.

(** X7: [FlatMap] returns a non-nil slice holding the elements of the inner
    slices one after the other, in order; a nil or empty inner slice adds
    nothing, and the length is the sum of the inner lengths. *)
Theorem FlatMap_concatenates {T} (source : slice (slice T)) :
  is_nil (FlatMap source) = false
  ∧ elems (FlatMap source) = concat (elems <$> elems source)
  ∧ len (FlatMap source) = total_of (len <$> elems source)
  ∧ ∀ x, x ∈ elems (FlatMap source)
         ↔ ∃ inner, inner ∈ elems source ∧ x ∈ elems inner.
Proof.
  unfold FlatMap. rewrite FlatMap_loop. simpl app. simpl elems.
  split; [done|]. split; [done|]. split.
  - unfold len. simpl elems.
    induction (elems source) as [|inner l IH]; [done|].
    rewrite !fmap_cons. simpl concat. simpl total_of.
    rewrite length_app, <- IH. lia.
  - intros x. rewrite elem_of_concat. split.
    + intros (l & Hl & Hx). apply list_elem_of_fmap in Hl as (inner & -> & Hin).
      by exists inner.
    + intros (inner & Hin & Hx). exists (elems inner). split; [|done].
      apply list_elem_of_fmap. by exists inner.
Qed.

Lemma fold_left_monoid {T} (f : T → T → T) (e : T) (l : list T) (a : T) :
  (∀ x y z, f (f x y) z = f x (f y z)) →
  (∀ x, f e x = x) → (∀ x, f x e = x) →
  fold_left f l a = f a (fold_left f l e).
Proof.
  intros Hassoc Hleft Hright. revert a.
  induction l as [|x l IH]; intros a; cbn [fold_left].
  - by rewrite Hright.
  - rewrite (IH (f a x)), (IH (f e x)), Hleft. apply Hassoc.
Qed.

(** X8: when the reducing function is associative and the initial value is
    its identity on both sides, reducing a concatenation is combining the
    reductions of the two parts. *)
Theorem Reduce_concatenation {T} (f : T → T → T) (e : T) (l1 l2 : list T) :
  (∀ x y z, f (f x y) z = f x (f y z)) →
  (∀ x, f e x = x) → (∀ x, f x e = x) →
  Reduce (mk_slice (l1 ++ l2)) f e
  = f (Reduce (mk_slice l1) f e) (Reduce (mk_slice l2) f e).
Proof.
  intros Hassoc Hleft Hright. unfold Reduce. simpl elems.
  rewrite fold_left_app. by apply fold_left_monoid.
Qed.

Lemma Reduce_concatenation_witness :
  (∀ x y z : Z, x + y + z = x + (y + z))
  ∧ (∀ x : Z, 0 + x = x) ∧ (∀ x : Z, x + 0 = x)
  ∧ Reduce (mk_slice ([1; 2] ++ [3; 4; 5])) Z.add 0
    = Reduce (mk_slice [1; 2]) Z.add 0 + Reduce (mk_slice [3; 4; 5]) Z.add 0.
Proof.
  split; [intros; lia|]. split; [intros; lia|]. split; [intros; lia|].
  apply (Reduce_concatenation Z.add 0 [1; 2] [3; 4; 5]); intros; lia.
Defined.

Lemma wrap_wrap_add (a b : Z) : wrap (wrap a + b) = wrap (a + b).
Proof.
  unfold wrap. f_equal.
  replace ((a + 2 ^ 63) mod 2 ^ 64 - 2 ^ 63 + b + 2 ^ 63)
    with ((a + 2 ^ 63) mod 2 ^ 64 + b) by lia.
  rewrite Z.add_mod_idemp_l by lia. f_equal. lia.
Qed.

Lemma Sum_loop (l : list Z) (a : Z) :
  fold_left (λ total v, plus total v) l (wrap a) = wrap (a + total_of l).
Proof.
  revert a. induction l as [|x l IH]; intros a; cbn [fold_left].
  - simpl. by rewrite Z.add_0_r.
  - unfold plus at 2, Summable_int. rewrite wrap_wrap_add, IH.
    simpl total_of. f_equal. lia.
Qed.

Lemma Sum_wrapped (items : slice Z) :
  Sum items = wrap (total_of (elems items)).
Proof. unfold Sum. change (zero : Z) with (wrap 0). by rewrite Sum_loop. Qed.

(** X9: on [int] elements [Sum] is the exact sum reduced to 64 bits, and it
    is the exact sum whenever that fits in an [int] - even if partial sums
    overflow on the way. *)
Theorem Sum_int_is_wrapped_total (items : slice Z) :
  Sum items = wrap (total_of (elems items))
  ∧ (in_int_range (total_of (elems items)) →
     Sum items = total_of (elems items)).
Proof.
  split; [apply Sum_wrapped|].
  intros Hfit. rewrite Sum_wrapped. by apply wrap_small.
Qed.

Lemma Sum_int_is_wrapped_total_witness :
  in_int_range (total_of [maxInt; 1; -2])
  ∧ Sum (mk_slice [maxInt; 1; -2]) = total_of [maxInt; 1; -2].
Proof.
  assert (in_int_range (total_of [maxInt; 1; -2])) as Hfit.
  { unfold in_int_range, total_of, minInt, maxInt. simpl. lia. }
  split; [exact Hfit|].
  exact (proj2 (Sum_int_is_wrapped_total (mk_slice [maxInt; 1; -2])) Hfit).
Defined.

Lemma total_of_Permutation (l1 l2 : list Z) :
  l1 ≡ₚ l2 → total_of l1 = total_of l2.
Proof.
  induction 1 as [|x l1 l2 _ IH|x y l|l1 l2 l3 _ IH1 _ IH2];
    simpl; [done|by rewrite IH|lia|congruence].
Qed.

(** X23: on [int] elements the result of [Sum] does not depend on the order
    of the elements, overflow included. *)
Theorem Sum_int_order_independent (a b : slice Z) :
  elems a ≡ₚ elems b → Sum a = Sum b.
Proof.
  intros Hperm. rewrite !Sum_wrapped.
  by rewrite (total_of_Permutation _ _ Hperm).
Qed.

Lemma Sum_int_order_independent_witness :
  elems (mk_slice (-2 :: [maxInt; 1])) ≡ₚ elems (mk_slice ([maxInt; 1] ++ [-2]))
  ∧ Sum (mk_slice (-2 :: [maxInt; 1])) = Sum (mk_slice ([maxInt; 1] ++ [-2])).
Proof.
  assert (elems (mk_slice (-2 :: [maxInt; 1]))
          ≡ₚ elems (mk_slice ([maxInt; 1] ++ [-2]))) as Hperm.
  { simpl elems. apply Permutation_cons_append. }
  split; [exact Hperm|].
  exact (Sum_int_order_independent _ _ Hperm).
Defined.

(** X10: chaining a concatenated list of functions is chaining the second
    list on the result of chaining the first. *)
Theorem Chain_concatenation {T} (value : T) (fs gs : list (T → T)) :
  Chain value (fs ++ gs) = Chain (Chain value fs) gs.
Proof. unfold Chain. apply fold_left_app. Qed.

(** *** Searching *)

(** X11: [Exists] is true exactly when some element of the slice satisfies
    the condition. *)
Theorem Exists_iff_some_element {T} (s : slice T) (condition : T → bool) :
  Exists s condition = true ↔ ∃ x, x ∈ elems s ∧ condition x = true.
Proof.
  unfold Exists. induction (elems s) as [|x l IH]; simpl.
  - split; [done|]. intros (x & Hx & _). by apply not_elem_of_nil in Hx.
  - destruct (condition x) eqn:Hx.
    + split; [|done]. intros _. exists x. split; [left|done].
    + rewrite IH. split.
      * intros (y & Hy & Hc). exists y. split; [by right|done].
      * intros (y & Hy & Hc). apply elem_of_cons in Hy as [->|Hy];
          [congruence|by exists y].
Qed.

(** X12: on a slice the runtime can hold, [Exists] answers whether [Count]
    is positive. *)
Theorem Exists_is_Count_positive {T} (s : slice T) (condition : T → bool) :
  representable s →
  Exists s condition = (0 <? Count s condition).
Proof.
  intros Hs. rewrite Count_length by done. unfold Exists.
  induction (elems s) as [|x l IH]; [done|]. simpl Exists_loop.
  destruct (condition x) eqn:Hx.
  - rewrite filter_cons_True by done. simpl length.
    symmetry. apply Z.ltb_lt. lia.
  - rewrite filter_cons_False by (by rewrite Hx). done.
Qed.

Lemma Exists_is_Count_positive_witness :
  representable sample_ints
  ∧ Exists sample_ints (Z.ltb 3) = (0 <? Count sample_ints (Z.ltb 3)).
Proof.
  assert (representable sample_ints) as Hs.
  { unfold representable, len, maxInt. simpl. lia. }
  split; [exact Hs|].
  exact (Exists_is_Count_positive sample_ints (Z.ltb 3) Hs).
Defined.

(** *** Copies of slices and maps *)

(** X13: [CloneList] returns a non-nil slice with the elements of the
    source, in order, whether the source is nil, empty or populated. *)
Theorem CloneList_same_elements {T} `{Zero T} (source : slice T) :
  is_nil (CloneList source) = false
  ∧ elems (CloneList source) = elems source
  ∧ len (CloneList source) = len source.
Proof.
  assert (CloneList source = mk_slice (elems source)) as ->; [|done].
  unfold CloneList, make, copy, len. f_equal.
  rewrite Nat2Z.id, length_replicate, Nat.min_id.
  rewrite take_ge by done. rewrite drop_ge by (by rewrite length_replicate).
  apply app_nil_r.
Qed.

Lemma CloneMap_entries {K V} `{Countable K} (m : gmap K V) :
  map_fold (λ key value clone, <[key := value]> clone) ∅ m = m.
Proof.
  apply (map_fold_weak_ind (λ r m, r = m)); [done|].
  intros i x m0 r _ ->. done.
Qed.

(** X14: [CloneMap] returns a non-nil map with exactly the entries of the
    source; a nil source gives a non-nil empty map. *)
Theorem CloneMap_same_entries {K V} `{Countable K} (source : gomap K V) :
  map_is_nil (CloneMap source) = false
  ∧ map_len (CloneMap source) = map_len source
  ∧ ∀ key, entries (CloneMap source) !! key = entries source !! key.
Proof.
  unfold CloneMap, map_len. simpl. by rewrite CloneMap_entries.
Qed.

Lemma FilterMap_entries {K V} `{Countable K} (f : K → V → bool) (m : gmap K V) :
  map_fold (λ key value result,
              if f key value then <[key := value]> result else result) ∅ m
  = filter (λ kv, f kv.1 kv.2 = true) m.
Proof.
  apply (map_fold_weak_ind
           (λ r m, r = filter (λ kv, f kv.1 kv.2 = true) m)).
  - by rewrite map_filter_empty.
  - intros i x m0 r Hfresh ->. destruct (f i x) eqn:Hix.
    + by rewrite map_filter_insert_True.
    + rewrite map_filter_insert_False by (simpl; by rewrite Hix).
      by rewrite delete_id.
Qed.

(** X15: [FilterMap] returns a non-nil map in which a key is bound to a
    value exactly when the source binds it to that value and the filtering
    function accepts the pair; the visiting order plays no role. *)
Theorem FilterMap_keeps_exactly_accepted {K V} `{Countable K}
    (source : gomap K V) (filteringFunc : K → V → bool) :
  map_is_nil (FilterMap source filteringFunc) = false
  ∧ ∀ key value,
      entries (FilterMap source filteringFunc) !! key = Some value
      ↔ entries source !! key = Some value ∧ filteringFunc key value = true.
Proof.
  unfold FilterMap. simpl. split; [done|]. intros key value.
  rewrite FilterMap_entries. apply map_lookup_filter_Some.
Qed.

(** X16: filtering a map twice is filtering it once by the conjunction of
    the two filtering functions. *)
Theorem FilterMap_FilterMap {K V} `{Countable K}
    (source : gomap K V) (f g : K → V → bool) :
  FilterMap (FilterMap source f) g
  = FilterMap source (λ key value, f key value && g key value).
Proof.
  unfold FilterMap. simpl entries. f_equal. rewrite !FilterMap_entries.
  apply map_eq. intros key. apply option_eq. intros value.
  rewrite !map_lookup_filter_Some. simpl.
  destruct (f key value), (g key value); naive_solver.
Qed.

(** *** Callbacks *)

Lemma ForEach_traced_loop {St T} (action : T → St → St)
    (l : list T) (st : St) (calls : list T) :
  fold_left (λ st item, traced_action action item st) l (st, calls)
  = (fold_left (λ st item, action item st) l st, calls ++ l).
Proof.
  revert st calls. induction l as [|x l IH]; intros st calls; cbn [fold_left].
  - by rewrite app_nil_r.
  - unfold traced_action at 2. rewrite IH. by rewrite <- app_assoc.
Qed.

(** X17: [ForEach] calls the action once on every element, in the order of
    the slice, and on nothing else. *)
Theorem ForEach_visits_in_order {St T} (source : slice T)
    (action : T → St → St) (st : St) :
  ForEach source (traced_action action) (st, [])
  = (ForEach source action st, elems source).
Proof. unfold ForEach. apply ForEach_traced_loop. Qed.

(** X18: with an action that never fails, [ForEachWithError] returns nil
    and leaves the state [ForEach] leaves. *)
Theorem ForEachWithError_never_fails {St T} (source : slice T)
    (action : T → St → St) (st : St) :
  ForEachWithError source (never_fails action) st
  = (None, ForEach source action st).
Proof.
  unfold ForEachWithError, ForEach. revert st.
  induction (elems source) as [|x l IH]; intros st; [done|].
  cbn [ForEachWithError_loop fold_left]. unfold never_fails at 1. apply IH.
Qed.

Lemma MapReturnWithError_pure_loop {St T1 T2} (f : T1 → T2)
    (l : list T1) (idx : Z) (acc : list T2) (st : St) :
  MapReturnWithError_loop l (always_succeeds f) idx (mk_slice acc) st
  = ((mk_slice (acc ++ (f <$> l)), None), st).
Proof.
  revert idx acc. induction l as [|x l IH]; intros idx acc.
  - simpl. by rewrite app_nil_r.
  - cbn [MapReturnWithError_loop]. unfold always_succeeds at 1.
    rewrite append_mk, IH, fmap_cons. by rewrite <- app_assoc.
Qed.

(** X19: with a transform that always succeeds and touches no state,
    [MapReturnWithError] returns what [Map] returns, and a nil error. *)
Theorem MapReturnWithError_always_succeeds {St T1 T2} (source : slice T1)
    (f : T1 → T2) (st : St) :
  MapReturnWithError source (always_succeeds f) st
  = ((Map source f, None), st).
Proof.
  unfold MapReturnWithError.
  by rewrite MapReturnWithError_pure_loop, Map_elems.
Qed.

(** *** Deduplication and extremes *)

Lemma Distinct_elems {T} `{Countable T} (s : slice T) :
  Distinct s = mk_slice (first_occurrences (elems s)).
Proof.
  unfold Distinct. rewrite Distinct_loop.
  - simpl app. f_equal. apply filter_all. intros x _. apply not_elem_of_nil.
  - intros x. unfold seen_get. rewrite lookup_empty. simpl.
    split; [done|]. intros Hx. by apply not_elem_of_nil in Hx.
Qed.

Lemma first_occurrences_NoDup_id {T} `{EqDecision T} (l : list T) :
  NoDup l → first_occurrences l = l.
Proof.
  induction 1 as [|x l Hx _ IH]; simpl; [done|].
  rewrite IH. f_equal. apply filter_all. intros y Hy ->. done.
Qed.

Lemma first_occurrences_sublist {T} `{EqDecision T} (l : list T) :
  sublist (first_occurrences l) l.
Proof.
  induction l as [|x l IH]; simpl; [done|].
  apply sublist_skip. etrans; [apply sublist_filter|done].
Qed.

(** X20: [Distinct] applied to its own result changes nothing, and its
    result is a sub-sequence of the input, so never longer. *)
Theorem Distinct_idempotent {T} `{Countable T} (s : slice T) :
  Distinct (Distinct s) = Distinct s
  ∧ sublist (elems (Distinct s)) (elems s)
  ∧ len (Distinct s) ≤ len s.
Proof.
  rewrite !Distinct_elems. simpl elems. split; [|split].
  - f_equal. apply first_occurrences_NoDup_id, first_occurrences_NoDup.
  - apply first_occurrences_sublist.
  - unfold len. simpl elems.
    pose proof (sublist_length _ _ (first_occurrences_sublist (elems s))).
    lia.
Qed.

(** X21: on a slice without repeated elements [Distinct] returns the same
    elements in the same order. *)
Theorem Distinct_keeps_duplicate_free {T} `{Countable T} (s : slice T) :
  NoDup (elems s) → elems (Distinct s) = elems s.
Proof.
  intros Hs. rewrite Distinct_elems. simpl.
  by apply first_occurrences_NoDup_id.
Qed.

Lemma Distinct_keeps_duplicate_free_witness :
  NoDup (elems sample_ints) ∧ elems (Distinct sample_ints) = elems sample_ints.
Proof.
  assert (NoDup (elems sample_ints)) as Hs.
  { simpl. repeat (apply NoDup_cons; split; [set_solver|]). apply NoDup_nil_2. }
  split; [exact Hs|].
  exact (Distinct_keeps_duplicate_free sample_ints Hs).
Defined.

Lemma MaxBy_identity_loop {T} `{Ordered T} (rest : list T) (m : T) :
  fold_left (MaxBy_step (λ x, x)) rest (m, m)
  = (fold_left (λ max v, if gt v max then v else max) rest m,
     fold_left (λ max v, if gt v max then v else max) rest m).
Proof.
  revert m. induction rest as [|v rest IH]; intros m; [done|].
  cbn [fold_left]. unfold MaxBy_step at 2. destruct (gt v m); apply IH.
Qed.

(** X22: with the identity as key, [MaxBy] and [MinBy] return what [Max]
    and [Min] return. *)
Theorem MaxBy_identity_is_Max {T} `{Ordered T, Zero T} (s : slice T) :
  MaxBy s (λ x, x) = Max s ∧ MinBy s (λ x, x) = Min s.
Proof.
  unfold MaxBy, MinBy, Max, Min.
  destruct (elems s) as [|first rest]; [done|]. split.
  - change (fold_left _ rest (first, first))
      with (fold_left (MaxBy_step (λ x : T, x)) rest (first, first)).
    by rewrite MaxBy_identity_loop.
  - change (fold_left _ rest (first, first))
      with (fold_left (MaxBy_step (H := Ordered_rev _) (λ x : T, x))
              rest (first, first)).
    by rewrite (MaxBy_identity_loop (H := Ordered_rev _)).
Qed.

End extra.

(** ** The package's own test cases, evaluated on the embedding *)

Module examples.

Example Map_doubles : Map sample_ints (Z.mul 2) = mk_slice [2; 4; 6; 8; 10].
Proof. reflexivity. Qed.

Example Filter_above_3 : Filter sample_ints (Z.ltb 3) = mk_slice [4; 5].
Proof. reflexivity. Qed.

Example Partition_above_3 :
  Partition sample_ints (Z.ltb 3) = (mk_slice [4; 5], mk_slice [1; 2; 3]).
Proof. reflexivity. Qed.

Example Distinct_ints :
  Distinct (mk_slice [1; 2; 3; 2; 4; 5; 4; 6]) = mk_slice [1; 2; 3; 4; 5; 6].
Proof. vm_compute. reflexivity. Qed.

Example DistinctFunc_ignores_compareFunc :
  DistinctFunc (mk_slice [1; 2; 3; 2; 4]) (λ _ _, true) = mk_slice [1; 2; 3; 4].
Proof. vm_compute. reflexivity. Qed.

Example Max_ints : Max sample_ints = (5, true).
Proof. reflexivity. Qed.

Example Min_negative : Min (mk_slice [-10; -3; -6; -1]) = (-10, true).
Proof. reflexivity. Qed.

Example Max_strings : Max (mk_slice ["pear"; "apple"; "plum"]) = ("plum", true).
Proof. vm_compute. reflexivity. Qed.

Example Max_nil : Max (@nil_slice Z) = (0, false).
Proof. reflexivity. Qed.

Example MaxBy_tie_keeps_first : MaxBy sample_pairs snd = ((3, 35), true).
Proof. reflexivity. Qed.

Example MinBy_tie_keeps_first : MinBy sample_pairs snd = ((2, 25), true).
Proof. reflexivity. Qed.

Example CloneList_nil : CloneList (@nil_slice Z) = mk_slice [].
Proof. reflexivity. Qed.

Example CloneList_copy : CloneList sample_ints = sample_ints.
Proof. reflexivity. Qed.

Example Compose_double_add3 : Compose (Z.mul 2) (Z.add 3) 5 = 16.
Proof. reflexivity. Qed.

Example Curry_add : Curry Z.add 5 3 = 8.
Proof. reflexivity. Qed.

Example Chain_two : Chain 5 [Z.add 3; Z.mul 2] = 16.
Proof. reflexivity. Qed.

Example Reduce_concat :
  Reduce (mk_slice ["D"; "a"; "r"; "k"; " "; "m"; "a"; "g"; "i"; "c"])
    String.append "" = "Dark magic".
Proof. vm_compute. reflexivity. Qed.

(** The failing run of [TestMapReturnWithError]: nil result, the exact
    message, and three calls of the transform (on 1, 2 and 3). *)
Example MapReturnWithError_fails_on_3 :
  ∃ err,
    MapReturnWithError sample_ints double_unless_3 0 = ((nil_slice, Some err), 3)
    ∧ Error err = "error mapping at index:'2', error: fake error for 3".
Proof. eexists. split; vm_compute; reflexivity. Qed.

(** A failure past the ninth element: the index is written with two
    digits. *)
Example MapReturnWithError_fails_at_index_10 :
  ∃ err,
    MapReturnWithError (mk_slice [1; 1; 1; 1; 1; 1; 1; 1; 1; 1; 3; 7])
      double_unless_3 0 = ((nil_slice, Some err), 11)
    ∧ Error err = "error mapping at index:'10', error: fake error for 3".
Proof. eexists. split; vm_compute; reflexivity. Qed.

Example MapReturnWithError_succeeds :
  MapReturnWithError (mk_slice [1; 2; 4; 5]) double_unless_3 0
  = ((mk_slice [2; 4; 8; 10], None), 4).
Proof. vm_compute. reflexivity. Qed.

Example ForEachWithError_stops_at_3 :
  ForEachWithError sample_ints (traced fail_on_3) (0, [])
  = (Some (New "error"), (3, [1; 2; 3])).
Proof. vm_compute. reflexivity. Qed.

End examples.
